(** * circular_buffer.h: a fixed-capacity ring buffer

    A shallow embedding of the class template [circular_buffer<T, N>] and of
    its iterator, followed by the properties of the container.

    Conventions of the embedding:
    - [std::size_t] is a 64-bit unsigned integer: a [Z] in [0, 2^64), every
      [++], [--], [+] and [-] on it reduced modulo [2^64] by [wrap];
    - the member array [buffer_] is a [list T]; a subscript outside the array
      and the remainder [% 0] are undefined behaviour, outcome [Undefined];
    - a reference returned by an accessor is the index of the slot of
      [buffer_] it designates ([Slot p]) or a temporary ([Temporary v]);
    - [throw std::out_of_range] is the outcome [OutOfRange]. *)

From stdpp Require Import base list.
From Stdlib Require Import ZArith Lia.

Local Open Scope Z_scope.

(** ** Machine integers *)

Definition size_t_modulus : Z := 2 ^ 64.

Definition PTRDIFF_MAX : Z := 2 ^ 63 - 1.

Definition wrap (z : Z) : Z := z mod size_t_modulus.

(** ** Outcomes of a member function *)

Inductive result (A : Type) : Type :=
| Ok (a : A)
| OutOfRange
| Undefined.

Arguments Ok {A} a.
Arguments OutOfRange {A}.
Arguments Undefined {A}.

#[global] Instance result_ret : MRet result := λ A a, Ok a.

#[global] Instance result_bind : MBind result := λ A B f m,
  match m with
  | Ok a => f a
  | OutOfRange => OutOfRange
  | Undefined => Undefined
  end.

(** ** The container's state *)

Record circular_buffer (T : Type) : Type := mk_circular_buffer {
  buffer_ : list T;
  size_ : Z;
  tail_ : Z;
  _head : Z
}.

Arguments mk_circular_buffer {T} _ _ _ _.
Arguments buffer_ {T} _.
Arguments size_ {T} _.
Arguments tail_ {T} _.
Arguments _head {T} _.

(** [circular_buffer_iterator]: the buffer it points to is the one it is
    used with; the position is a logical one. *)
Record circular_buffer_iterator : Type := mk_iterator { _pos : Z }.

(** What a returned reference designates. *)
Inductive reference (T : Type) : Type :=
| Slot (p : Z)
| Temporary (v : T).

Arguments Slot {T} p.
Arguments Temporary {T} v.

(** The operations of a client program. *)
Inductive op (T : Type) : Type :=
| Push (x : T)
| Pop
| Fill (u : T)
| Clear.

Arguments Push {T} x.
Arguments Pop {T}.
Arguments Fill {T} u.
Arguments Clear {T}.

Section circular_buffer.

Context {T : Type}.

(** The capacity, template parameter [N]. *)
Variable N : Z.

Local Abbreviation cb := (circular_buffer T).

(** [T buffer_[N ? N : 1]] *)
Definition storage_size : Z := if N =? 0 then 1 else N.

(** A freshly constructed buffer; [b] is the default-initialised array. *)
Definition init (b : list T) : cb :=
  {| buffer_ := b; size_ := 0; tail_ := 0; _head := 1 |}.

Definition clear (s : cb) : cb :=
  {| buffer_ := buffer_ s; size_ := 0; tail_ := 0; _head := 1 |}.

(** *** Capacity *)

Definition size (s : cb) : Z := size_ s.

Definition maxsize_ (s : cb) : Z := N.

Definition empty (s : cb) : bool := size s =? 0.

Definition full (s : cb) : bool := size s =? N.

(** *** Private helpers *)

Definition _incrementtail_ (s : cb) : cb :=
  let t := wrap (tail_ s + 1) in
  {| buffer_ := buffer_ s;
     size_ := wrap (size_ s + 1);
     tail_ := if t =? N then 0 else t;
     _head := _head s |}.

Definition _increment_head (s : cb) : cb :=
  let h := wrap (_head s + 1) in
  {| buffer_ := buffer_ s;
     size_ := wrap (size_ s - 1);
     tail_ := tail_ s;
     _head := if h =? N then 0 else h |}.

Definition _position_inbuffer_ (s : cb) (i : Z) : result Z :=
  if N =? 0 then Undefined else Ok (wrap (_head s + i) mod N).

(** *** The array [buffer_] *)

Definition in_storage (p : Z) : bool := (0 <=? p) && (p <? storage_size).

(** The lvalue [buffer_[p]]. *)
Definition buffer_slot (p : Z) : result Z :=
  if in_storage p then Ok p else Undefined.

(** [buffer_[p] = x] *)
Definition buffer_store (s : cb) (p : Z) (x : T) : result cb :=
  if in_storage p
  then Ok {| buffer_ := <[Z.to_nat p := x]> (buffer_ s);
             size_ := size_ s; tail_ := tail_ s; _head := _head s |}
  else Undefined.

(** Reading the slot a reference designates. *)
Definition buffer_load (s : cb) (p : Z) : result T :=
  if in_storage p
  then match buffer_ s !! Z.to_nat p with
       | Some x => Ok x
       | None => Undefined
       end
  else Undefined.

(** *** Element access *)

(** [operator[]], both overloads. *)
Definition subscript (s : cb) (i : Z) : result Z :=
  p ← _position_inbuffer_ s i; buffer_slot p.

(** [at], both overloads. *)
Definition at_ (s : cb) (i : Z) : result Z :=
  if N <=? i then OutOfRange
  else p ← _position_inbuffer_ s i; buffer_slot p.

(** *** Iterators *)

Definition begin (s : cb) : circular_buffer_iterator := {| _pos := 0 |}.

Definition end_ (s : cb) : circular_buffer_iterator := {| _pos := size s |}.

(** [operator*] *)
Definition it_deref (s : cb) (it : circular_buffer_iterator) : result Z :=
  subscript s (_pos it).

(** [operator++] *)
Definition it_incr (it : circular_buffer_iterator) : circular_buffer_iterator :=
  {| _pos := wrap (_pos it + 1) |}.

(** [operator--] *)
Definition it_decr (it : circular_buffer_iterator) : circular_buffer_iterator :=
  {| _pos := wrap (_pos it - 1) |}.

(** [operator+] *)
Definition it_add (it : circular_buffer_iterator) (n : Z) : circular_buffer_iterator :=
  {| _pos := wrap (_pos it + n) |}.

(** [operator-] *)
Definition it_sub (it : circular_buffer_iterator) (n : Z) : circular_buffer_iterator :=
  {| _pos := wrap (_pos it - n) |}.

(** [operator==] on two iterators of the same buffer. *)
Definition it_eq (a b : circular_buffer_iterator) : bool := _pos a =? _pos b.

(** *** front and back *)

Definition front (s : cb) : result (reference T) :=
  p ← it_deref s (begin s); mret (Slot p).

Definition front_const (s : cb) : result (reference T) :=
  p ← it_deref s (begin s); mret (Slot p).

(** [N ? *(end()-1) : *end()] *)
Definition back (s : cb) : result (reference T) :=
  if N =? 0
  then p ← it_deref s (end_ s); mret (Slot p)
  else p ← it_deref s (it_sub (end_ s) 1); mret (Slot p).

(** The subtraction [x - 1] of the element type; it may have no defined
    value (signed overflow). *)
Variable minus : T → Z → result T.

(** [N ? *end()-1 : *end()]: in the first branch the subtraction applies
    to the element read through [*end()], the conditional is a prvalue and
    the returned reference is bound to that temporary. *)
Definition back_const (s : cb) : result (reference T) :=
  if N =? 0
  then p ← it_deref s (end_ s); x ← buffer_load s p; mret (Temporary x)
  else p ← it_deref s (end_ s); x ← buffer_load s p;
       v ← minus x 1; mret (Temporary v).

(** Reading through a reference after the accessor has returned. The
    temporary a reference was bound to is destroyed by then: such a
    reference dangles and reading through it has no defined value. *)
Definition read (s : cb) (r : reference T) : result T :=
  match r with
  | Slot p => buffer_load s p
  | Temporary v => Undefined
  end.

(** *** Add / remove *)

Definition push_back (s : cb) (item : T) : result cb :=
  let s1 := _incrementtail_ s in
  let s2 := if size_ s1 =? N then _increment_head s1 else s1 in
  buffer_store s2 (tail_ s2) item.

Definition pop_front (s : cb) : cb := _increment_head s.

(** *** fill *)

(** [std::fill_n(first, n, u)]: [n] times [*first = u; ++first]. *)
Fixpoint fill_n (s : cb) (first : circular_buffer_iterator) (n : nat) (u : T)
  : result cb :=
  match n with
  | O => Ok s
  | S n' =>
      p ← it_deref s first;
      s' ← buffer_store s p u;
      fill_n s' (it_incr first) n' u
  end.

Definition fill (s : cb) (u : T) : result cb :=
  fill_n s (begin s) (Z.to_nat (size s)) u.

(** *** Traversal *)

(** The element at logical position [i], read through [operator[]]. *)
Definition get (s : cb) (i : Z) : result T :=
  p ← subscript s i; buffer_load s p.

(** [n] steps of [x = *it; ++it]. *)
Fixpoint read_n (s : cb) (it : circular_buffer_iterator) (n : nat)
  : result (list T) :=
  match n with
  | O => Ok []
  | S n' =>
      p ← it_deref s it;
      x ← buffer_load s p;
      xs ← read_n s (it_incr it) n';
      mret (x :: xs)
  end.

(** The logical sequence, positions [0] to [size() - 1]. *)
Definition to_list (s : cb) : result (list T) :=
  read_n s (begin s) (Z.to_nat (size s)).

(** [for (it = begin(); it != end(); ++it) *it], bounded by [fuel]
    iterations; [None] when the fuel runs out. *)
Fixpoint iterate (fuel : nat) (s : cb) (it last : circular_buffer_iterator)
  : option (result (list T)) :=
  match fuel with
  | O => None
  | S fuel' =>
      if it_eq it last then Some (Ok [])
      else match it_deref s it ≫= buffer_load s with
           | Ok x =>
               match iterate fuel' s (it_incr it) last with
               | Some (Ok xs) => Some (Ok (x :: xs))
               | r => r
               end
           | OutOfRange => Some OutOfRange
           | Undefined => Some Undefined
           end
  end.

(** *** Client programs *)

(** Runs a client program that respects the precondition of [pop_front]
    (a non-empty buffer); [None] when the program would break it or when an
    operation has no defined result. *)
Fixpoint run (ops : list (op T)) (s : cb) : option cb :=
  match ops with
  | [] => Some s
  | Push x :: ops' =>
      match push_back s x with
      | Ok s' => run ops' s'
      | _ => None
      end
  | Pop :: ops' =>
      if 0 <? size s then run ops' (pop_front s) else None
  | Fill u :: ops' =>
      match fill s u with
      | Ok s' => run ops' s'
      | _ => None
      end
  | Clear :: ops' => run ops' (clear s)
  end.

End circular_buffer.

(** ** Iterators: comparison and reverse traversal *)

(** An iterator together with the address of the buffer it was made for,
    the member [_circular_buffer]. *)
Record located_iterator : Type := mk_located {
  _circular_buffer : Z;
  _it : circular_buffer_iterator
}.

(** [operator==] *)
Definition operator_eq (a b : located_iterator) : bool :=
  (_circular_buffer a =? _circular_buffer b) && (_pos (_it a) =? _pos (_it b)).

(** [operator!=] *)
Definition operator_ne (a b : located_iterator) : bool :=
  negb (_circular_buffer a =? _circular_buffer b) ||
  negb (_pos (_it a) =? _pos (_it b)).

Section reverse_iteration.

Context {T : Type}.

Variable N : Z.

Local Abbreviation cb := (circular_buffer T).

(** [rbegin()] is [std::reverse_iterator(end())] and [rend()] is
    [std::reverse_iterator(begin())]; a reverse iterator is the iterator it
    holds. *)
Definition rbegin (s : cb) : circular_buffer_iterator := end_ s.

Definition rend (s : cb) : circular_buffer_iterator := begin s.

(** [*r] of [std::reverse_iterator]: [tmp = current; return *--tmp]. *)
Definition rit_deref (s : cb) (r : circular_buffer_iterator) : result Z :=
  it_deref N s (it_decr r).

(** [++r] of [std::reverse_iterator]: [--current]. *)
Definition rit_incr (r : circular_buffer_iterator) : circular_buffer_iterator :=
  it_decr r.

(** [for (r = rbegin(); r != rend(); ++r) *r], bounded by [fuel]
    iterations; [None] when the fuel runs out. *)
Fixpoint reverse_iterate (fuel : nat) (s : cb) (r last : circular_buffer_iterator)
  : option (result (list T)) :=
  match fuel with
  | O => None
  | S fuel' =>
      if it_eq r last then Some (Ok [])
      else match rit_deref s r ≫= buffer_load N s with
           | Ok x =>
               match reverse_iterate fuel' s (rit_incr r) last with
               | Some (Ok xs) => Some (Ok (x :: xs))
               | other => other
               end
           | OutOfRange => Some OutOfRange
           | Undefined => Some Undefined
           end
  end.

End reverse_iteration.

(** ** Client programs, every call executed *)

Section execution.

Context {T : Type}.

Variable N : Z.

Local Abbreviation cb := (circular_buffer T).

(** The calls of a client program one after the other, as the code runs
    them: [pop_front] is called whatever the count is. *)
Fixpoint exec (ops : list (op T)) (s : cb) : result cb :=
  match ops with
  | [] => Ok s
  | Push x :: ops' => s' ← push_back N s x; exec ops' s'
  | Pop :: ops' => exec ops' (pop_front N s)
  | Fill u :: ops' => s' ← fill N s u; exec ops' s'
  | Clear :: ops' => exec ops' (clear s)
  end.

End execution.

(** ** Specification-level definitions *)

Section model.

Context {T : Type}.

Variable N : Z.

Local Abbreviation cb := (circular_buffer T).

(** The representation of an object of the class: the array has its declared
    length and the three counters are [std::size_t] values. *)
Definition well_formed (s : cb) : Prop :=
  length (buffer_ s) = Z.to_nat (storage_size N) ∧
  0 ≤ size_ s < size_t_modulus ∧
  0 ≤ tail_ s < size_t_modulus ∧
  0 ≤ _head s < size_t_modulus.

(** The queue the code implements: the new item goes to the back, and the
    oldest one leaves as soon as the length reaches [N]. *)
Definition queue_push (l : list T) (x : T) : list T :=
  let l' := l ++ [x] in
  if Z.of_nat (length l') =? N then drop 1 l' else l'.

Definition queue_op (l : list T) (o : op T) : list T :=
  match o with
  | Push x => queue_push l x
  | Pop => drop 1 l
  | Fill u => replicate (length l) u
  | Clear => []
  end.

(** [fill_n] on the logical sequence: [n] positions from [k] on take [u]. *)
Fixpoint fill_list (l : list T) (k n : nat) (u : T) : list T :=
  match n with
  | O => l
  | S n' => fill_list (<[k := u]> l) (S k) n' u
  end.

(** The logical sequence a client program leaves behind. *)
Definition queue_run (l : list T) (ops : list (op T)) : list T :=
  foldl queue_op l ops.

(** A program calls [pop_front] only on a non-empty queue. *)
Fixpoint queue_ok (l : list T) (ops : list (op T)) : bool :=
  match ops with
  | [] => true
  | o :: ops' =>
      match o with
      | Pop => negb (Nat.eqb (length l) 0)
      | _ => true
      end && queue_ok (queue_op l o) ops'
  end.

(** The items a program pushes, in order. *)
Definition pushed (ops : list (op T)) : list T :=
  flat_map (λ o, match o with Push x => [x] | _ => [] end) ops.



(** A state reached from a freshly constructed buffer. *)
Definition reachable (s : cb) : Prop :=
  ∃ b ops, length b = Z.to_nat (storage_size N) ∧ run N ops (init b) = Some s.

(** State [s] holds the logical sequence [l]: element [i] of [l] sits in
    slot [(head + i) mod N]. *)
Definition models (s : cb) (l : list T) : Prop :=
  well_formed s ∧
  size_ s = Z.of_nat (length l) ∧
  size_ s ≤ N - 1 ∧
  (N = 1 ∨ _head s < N) ∧
  tail_ s = (_head s + size_ s - 1) mod N ∧
  ∀ (i : nat) (x : T), l !! i = Some x →
    buffer_ s !! Z.to_nat ((_head s + Z.of_nat i) mod N) = Some x.

(** "Advances by one slot, wrapping at N." *)
Definition next_slot (p : Z) : Z := if p + 1 =? N then 0 else p + 1.

(** The postcondition of [push_back] in the words of the specification:
    below capacity the count grows and the item lands in the advanced tail
    slot; at capacity head and tail both advance, the count stays, and the
    item takes the slot of the oldest element. *)
Definition spec_push_back_post (s : cb) (x : T) (s' : cb) : Prop :=
  (size_ s < N →
     size_ s' = size_ s + 1 ∧
     tail_ s' = next_slot (tail_ s) ∧
     buffer_ s' !! Z.to_nat (tail_ s') = Some x) ∧
  (size_ s = N →
     size_ s' = N ∧
     _head s' = next_slot (_head s) ∧
     tail_ s' = next_slot (tail_ s) ∧
     tail_ s' = _head s ∧
     buffer_ s' !! Z.to_nat (_head s) = Some x).

(** The bounds the counters keep in every state a client can reach. *)
Definition counters_ok (s : cb) : Prop :=
  0 ≤ size_ s ≤ N - 1 ∧ 0 ≤ tail_ s < N.

End model.

(** ** Sample states, capacity 3, elements of type [int] *)

(** After [push_back(1); push_back(2)]. *)
Definition after_1_2 : circular_buffer Z :=
  {| buffer_ := [0; 1; 2]; size_ := 2; tail_ := 2; _head := 1 |}.

(** After [push_back(1); push_back(2); push_back(3)]. *)
Definition after_1_2_3 : circular_buffer Z :=
  {| buffer_ := [3; 1; 2]; size_ := 2; tail_ := 0; _head := 2 |}.

(** After [push_back(1)] to [push_back(5)]. *)
Definition after_1_to_5 : circular_buffer Z :=
  {| buffer_ := [3; 4; 5]; size_ := 2; tail_ := 2; _head := 1 |}.

(** After [push_back(10); push_back(20)]. *)
Definition after_10_20 : circular_buffer Z :=
  {| buffer_ := [0; 10; 20]; size_ := 2; tail_ := 2; _head := 1 |}.

Definition INT_MIN : Z := - 2 ^ 31.

Definition INT_MAX : Z := 2 ^ 31 - 1.

(** [operator-] of [int] (32 bits): undefined when the difference is not an
    [int]. *)
Definition int_minus (x n : Z) : result Z :=
  if (INT_MIN <=? x - n) && (x - n <=? INT_MAX) then Ok (x - n) else Undefined.


(** ** Arithmetic of the indices *)

Lemma wrap_small (z : Z) : 0 ≤ z < size_t_modulus → wrap z = z.
Proof. intros H. unfold wrap. by apply Z.mod_small. Qed.

Lemma wrap_range (z : Z) : 0 ≤ wrap z < size_t_modulus.
Proof. unfold wrap. apply Z.mod_pos_bound. by vm_compute. Qed.

Lemma mod_inj_small (n a b : Z) :
  0 < n → a mod n = b mod n → - n < a - b < n → a = b.
Proof.
  intros Hn Heq Hd.
  pose proof (Z.div_mod a n ltac:(lia)) as Ha.
  pose proof (Z.div_mod b n ltac:(lia)) as Hb.
  rewrite Heq in Ha.
  assert (a / n = b / n) by nia.
  nia.
Qed.

Lemma mod_shift (n a b c : Z) :
  a mod n = b mod n → (a + c) mod n = (b + c) mod n.
Proof.
  intros H. rewrite <- (Zplus_mod_idemp_l a), <- (Zplus_mod_idemp_l b).
  by rewrite H.
Qed.

(** The value [_increment_head] leaves in [_head]. *)
Lemma next_head_spec (n h : Z) :
  1 ≤ n ≤ PTRDIFF_MAX → 0 ≤ h < size_t_modulus → n = 1 ∨ h < n →
  let h' := if wrap (h + 1) =? n then 0 else wrap (h + 1) in
  h' mod n = (h + 1) mod n ∧ (n = 1 ∨ h' < n) ∧ 0 ≤ h' < size_t_modulus.
Proof.
  intros Hn Hh Hc h'. subst h'.
  pose proof (wrap_range (h + 1)) as Hw.
  unfold PTRDIFF_MAX, size_t_modulus in *.
  destruct (Z.eqb_spec (wrap (h + 1)) n) as [He|Hne].
  - split; [|lia]. destruct Hc as [->|Hlt]; [by rewrite !Z.mod_1_r|].
    rewrite wrap_small in He by (unfold size_t_modulus; lia).
    rewrite He. rewrite Z.mod_same by lia. by rewrite Z.mod_0_l by lia.
  - destruct Hc as [->|Hlt].
    + split; [by rewrite !Z.mod_1_r|]. split; [by left | lia].
    + rewrite wrap_small in * by (unfold size_t_modulus; lia).
      split; [done|]. split; [right; lia | lia].
Qed.

(** ** The representation invariant *)

Section refinement.

Context {T : Type}.

Variable N : Z.

Hypothesis N_pos : 1 ≤ N.

(** An array of [N] elements is an object, of at most [PTRDIFF_MAX] bytes. *)
Hypothesis N_max : N ≤ PTRDIFF_MAX.

Local Abbreviation cb := (circular_buffer T).

Lemma storage_size_pos : storage_size N = N.
Proof. unfold storage_size. destruct (Z.eqb_spec N 0); [lia | done]. Qed.

Lemma in_storage_mod (a : Z) : in_storage N (a mod N) = true.
Proof.
  unfold in_storage. rewrite storage_size_pos.
  pose proof (Z.mod_pos_bound a N ltac:(lia)). apply andb_true_iff. lia.
Qed.

Lemma models_init (b : list T) :
  length b = Z.to_nat (storage_size N) → models N (init b) [].
Proof.
  intros Hb. repeat split; simpl; try done; lia.
Qed.

Lemma models_clear (s : cb) : well_formed N s → models N (clear s) [].
Proof.
  intros (Hb & _). repeat split; simpl; try done; lia.
Qed.

Lemma models_well_formed (s : cb) (l : list T) : models N s l → well_formed N s.
Proof. by intros [H _]. Qed.

Lemma models_tail_range (s : cb) (l : list T) : models N s l → 0 ≤ tail_ s < N.
Proof.
  intros (_ & _ & _ & _ & Ht & _). rewrite Ht. apply Z.mod_pos_bound. lia.
Qed.

(** The tail after [_incrementtail_] is the slot after the last element. *)
Lemma models_next_tail (s : cb) (l : list T) :
  models N s l →
  tail_ (_incrementtail_ N s) = (_head s + size_ s) mod N.
Proof.
  intros Hm. pose proof (models_tail_range _ _ Hm) as Hr.
  destruct Hm as (_ & _ & _ & _ & Ht & _).
  unfold _incrementtail_; simpl.
  unfold PTRDIFF_MAX in N_max.
  rewrite wrap_small by (unfold size_t_modulus; lia).
  assert ((tail_ s + 1) mod N = (_head s + size_ s) mod N) as <-.
  { rewrite Ht, Zplus_mod_idemp_l. f_equal. lia. }
  destruct (Z.eqb_spec (tail_ s + 1) N) as [->|Hne].
  - by rewrite Z.mod_same by lia.
  - rewrite Z.mod_small; lia.
Qed.

Lemma lookup_after_store (b : list T) (l : list T) (h k : Z) (x y : T) (i : nat) :
  length b = Z.to_nat N → 0 ≤ k < N → Z.of_nat (length l) = k →
  (∀ (j : nat) (z : T), l !! j = Some z → b !! Z.to_nat ((h + Z.of_nat j) mod N) = Some z) →
  (l ++ [x]) !! i = Some y →
  <[Z.to_nat ((h + k) mod N) := x]> b !! Z.to_nat ((h + Z.of_nat i) mod N) = Some y.
Proof.
  intros Hlen Hk Hl Hel Hi.
  apply lookup_lt_Some in Hi as Hlt. rewrite length_app in Hlt; simpl in Hlt.
  pose proof (Z.mod_pos_bound (h + k) N ltac:(lia)) as Hb.
  destruct (decide (i = length l)) as [Heq|Hne].
  - rewrite Heq in *. rewrite list_lookup_middle in Hi by done.
    injection Hi as ->. rewrite Hl.
    apply list_lookup_insert_eq. lia.
  - rewrite lookup_app_l in Hi by lia.
    rewrite list_lookup_insert_ne; [by apply Hel|].
    intros Heq. apply Z2Nat.inj in Heq; try (apply Z.mod_pos_bound; lia).
    apply mod_inj_small in Heq; lia.
Qed.

Lemma models_push (s : cb) (l : list T) (x : T) :
  models N s l →
  ∃ s', push_back N s x = Ok s' ∧ models N s' (queue_push N l x).
Proof.
  intros Hm. pose proof (models_next_tail _ _ Hm) as Htail.
  pose proof Hm as ((Hlen & Hs & Htl & Hhd) & Hsz & Hle & Hh & Ht & Hel).
  rewrite storage_size_pos in Hlen.
  pose proof (Z.mod_pos_bound (_head s + size_ s) N ltac:(lia)) as Hb.
  assert (N < size_t_modulus) as HN
    by (unfold PTRDIFF_MAX in N_max; unfold size_t_modulus; lia).
  assert (wrap (size_ s + 1) = size_ s + 1) as Hw1 by (apply wrap_small; lia).
  assert (wrap (size_ s + 1 - 1) = size_ s) as Hw2 by (rewrite wrap_small; lia).
  unfold push_back.
  change (size_ (_incrementtail_ N s)) with (wrap (size_ s + 1)).
  rewrite Hw1. unfold queue_push. rewrite length_app; simpl length.
  replace (Z.of_nat (length l + 1)) with (size_ s + 1) by lia.
  destruct (Z.eqb_spec (size_ s + 1) N) as [Hfull|Hnot].
  - (* the oldest element leaves *)
    pose proof (next_head_spec N (_head s) ltac:(lia) Hhd Hh) as (Hh1 & Hh2 & Hh3).
    unfold buffer_store.
    change (tail_ (_increment_head N (_incrementtail_ N s)))
      with (tail_ (_incrementtail_ N s)).
    rewrite Htail, in_storage_mod. eexists; split; [done|].
    unfold models, well_formed; simpl.
    set (h' := if wrap (_head s + 1) =? N then 0 else wrap (_head s + 1)) in *.
    rewrite Hw1, Hw2, length_insert, storage_size_pos.
    rewrite length_drop, length_app; simpl length.
    repeat split; try done; try lia.
    + replace (h' + size_ s - 1) with (h' + (size_ s - 1)) by lia.
      rewrite (mod_shift _ _ _ (size_ s - 1) Hh1). f_equal. lia.
    + intros i y Hi. rewrite lookup_drop in Hi.
      rewrite (mod_shift _ _ _ (Z.of_nat i) Hh1).
      replace (_head s + 1 + Z.of_nat i) with (_head s + Z.of_nat (1 + i)) by lia.
      eapply lookup_after_store; eauto; lia.
  - (* room left *)
    unfold buffer_store. rewrite Htail, in_storage_mod.
    eexists; split; [done|].
    unfold models, well_formed; simpl.
    rewrite Hw1, length_insert, storage_size_pos, length_app; simpl length.
    repeat split; try done; try lia.
    + f_equal. lia.
    + intros i y Hi. eapply lookup_after_store; eauto; lia.
Qed.

Lemma models_pop (s : cb) (l : list T) :
  models N s l → 0 < size s → models N (pop_front N s) (drop 1 l).
Proof.
  intros ((Hlen & Hs & Htl & Hhd) & Hsz & Hle & Hh & Ht & Hel) Hpos.
  unfold size in Hpos.
  assert (N < size_t_modulus) as HN
    by (unfold PTRDIFF_MAX in N_max; unfold size_t_modulus; lia).
  pose proof (next_head_spec N (_head s) ltac:(lia) Hhd Hh) as (Hh1 & Hh2 & Hh3).
  unfold models, well_formed, pop_front; simpl.
  set (h' := if wrap (_head s + 1) =? N then 0 else wrap (_head s + 1)) in *.
  rewrite wrap_small, length_drop by lia.
  repeat split; try done; try lia.
  - rewrite Ht. replace (h' + (size_ s - 1) - 1) with (h' + (size_ s - 2)) by lia.
    rewrite (mod_shift _ _ _ (size_ s - 2) Hh1). f_equal. lia.
  - intros i y Hi. rewrite lookup_drop in Hi.
    rewrite (mod_shift _ _ _ (Z.of_nat i) Hh1).
    replace (_head s + 1 + Z.of_nat i) with (_head s + Z.of_nat (1 + i)) by lia.
    by apply Hel.
Qed.

(** Inside the logical range [operator[]] designates slot [(head + i) mod N]
    and that slot holds element [i]. *)
Lemma models_subscript (s : cb) (l : list T) (i : nat) (x : T) :
  models N s l → l !! i = Some x →
  subscript N s (Z.of_nat i) = Ok ((_head s + Z.of_nat i) mod N) ∧
  buffer_load N s ((_head s + Z.of_nat i) mod N) = Ok x.
Proof.
  intros ((Hlen & Hs & Htl & Hhd) & Hsz & Hle & Hh & Ht & Hel) Hi.
  apply lookup_lt_Some in Hi as Hlt.
  unfold subscript, _position_inbuffer_, buffer_load, buffer_slot.
  destruct (Z.eqb_spec N 0) as [|_]; [lia|]. simpl.
  rewrite wrap_small
    by (unfold PTRDIFF_MAX in N_max; unfold size_t_modulus in *; lia).
  rewrite in_storage_mod. by rewrite (Hel _ _ Hi).
Qed.

Lemma models_get (s : cb) (l : list T) (i : nat) (x : T) :
  models N s l → l !! i = Some x → get N s (Z.of_nat i) = Ok x.
Proof.
  intros Hm Hi. destruct (models_subscript _ _ _ _ Hm Hi) as [H1 H2].
  unfold get. by rewrite H1.
Qed.

Lemma read_n_models (s : cb) (l : list T) (n k : nat) :
  models N s l → (k + n = length l)%nat →
  read_n N s {| _pos := Z.of_nat k |} n = Ok (drop k l).
Proof.
  intros Hm. revert k. induction n as [|n IH]; intros k Hk; simpl.
  - by rewrite drop_ge by lia.
  - destruct (lookup_lt_is_Some_2 l k ltac:(lia)) as [x Hx].
    destruct (models_subscript _ _ _ _ Hm Hx) as [H1 H2].
    unfold it_deref; simpl. rewrite H1; simpl. rewrite H2; simpl.
    destruct Hm as ((_ & Hs & _) & Hsz & _).
    unfold it_incr; simpl. rewrite wrap_small by lia.
    replace (Z.of_nat k + 1) with (Z.of_nat (S k)) by lia.
    rewrite IH by lia. simpl. by rewrite (drop_S _ _ _ Hx).
Qed.

Lemma models_to_list (s : cb) (l : list T) :
  models N s l → to_list N s = Ok l.
Proof.
  intros Hm. unfold to_list, begin, size.
  pose proof Hm as (_ & Hsz & _). rewrite Hsz, Nat2Z.id.
  by apply (read_n_models s l (length l) 0 Hm).
Qed.

Lemma iterate_unfold (fuel : nat) (s : cb) (it last : circular_buffer_iterator) :
  iterate N (S fuel) s it last =
  if it_eq it last then Some (Ok [])
  else match it_deref N s it ≫= buffer_load N s with
       | Ok x =>
           match iterate N fuel s (it_incr it) last with
           | Some (Ok xs) => Some (Ok (x :: xs))
           | r => r
           end
       | OutOfRange => Some OutOfRange
       | Undefined => Some Undefined
       end.
Proof. reflexivity. Qed.

(** The loop [for (it = begin(); it != end(); ++it)] ends after [size()]
    steps and visits the same elements. *)
Lemma iterate_models (s : cb) (l : list T) (n k : nat) :
  models N s l → (k + n = length l)%nat →
  iterate N (S n) s {| _pos := Z.of_nat k |} (end_ s) = Some (Ok (drop k l)).
Proof.
  intros Hm. unfold end_, size. revert k. induction n as [|n IH]; intros k Hk.
  - pose proof Hm as (_ & Hsz & _).
    rewrite iterate_unfold. unfold it_eq; simpl.
    destruct (Z.eqb_spec (Z.of_nat k) (size_ s)); [|lia].
    by rewrite drop_ge by lia.
  - pose proof Hm as ((_ & Hs & _) & Hsz & _).
    destruct (lookup_lt_is_Some_2 l k ltac:(lia)) as [x Hx].
    destruct (models_subscript _ _ _ _ Hm Hx) as [H1 H2].
    rewrite iterate_unfold. unfold it_eq; cbn [_pos].
    destruct (Z.eqb_spec (Z.of_nat k) (size_ s)); [lia|].
    unfold it_deref; cbn [_pos]. rewrite H1. cbn [mbind result_bind].
    rewrite H2. unfold it_incr; cbn [_pos]. rewrite wrap_small by lia.
    replace (Z.of_nat k + 1) with (Z.of_nat (S k)) by lia.
    rewrite IH by lia. by rewrite (drop_S _ _ _ Hx).
Qed.

Lemma store_models (s : cb) (l : list T) (k : nat) (u : T) :
  models N s l → (k < length l)%nat →
  ∃ s', buffer_store N s ((_head s + Z.of_nat k) mod N) u = Ok s' ∧
        _head s' = _head s ∧ models N s' (<[k := u]> l).
Proof.
  intros ((Hlen & Hs & Htl & Hhd) & Hsz & Hle & Hh & Ht & Hel) Hk.
  rewrite storage_size_pos in Hlen.
  unfold buffer_store. rewrite in_storage_mod.
  eexists; split; [done|]. split; [done|].
  unfold models, well_formed; simpl.
  rewrite !length_insert, storage_size_pos.
  repeat split; try done; try lia.
  intros i y Hi. apply lookup_lt_Some in Hi as Hlt. rewrite length_insert in Hlt.
  pose proof (Z.mod_pos_bound (_head s + Z.of_nat k) N ltac:(lia)) as Hb.
  destruct (decide (k = i)) as [->|Hne].
  - rewrite list_lookup_insert_eq in Hi by done. injection Hi as ->.
    apply list_lookup_insert_eq. lia.
  - rewrite list_lookup_insert_ne in Hi by done.
    rewrite list_lookup_insert_ne; [by apply Hel|].
    intros Heq. apply Z2Nat.inj in Heq; try (apply Z.mod_pos_bound; lia).
    apply mod_inj_small in Heq; lia.
Qed.

Lemma fill_n_models (u : T) (n k : nat) (s : cb) (l : list T) :
  models N s l → (k + n ≤ length l)%nat →
  ∃ s', fill_n N s {| _pos := Z.of_nat k |} n u = Ok s' ∧
        models N s' (fill_list l k n u).
Proof.
  revert k s l. induction n as [|n IH]; intros k s l Hm Hk; simpl.
  - by exists s.
  - destruct (lookup_lt_is_Some_2 l k ltac:(lia)) as [x Hx].
    destruct (models_subscript _ _ _ _ Hm Hx) as [H1 _].
    destruct (store_models s l k u Hm ltac:(lia)) as (s1 & Hst & Hhd & Hm1).
    unfold it_deref; simpl. rewrite H1; simpl. rewrite Hst; simpl.
    destruct Hm as ((_ & Hs & _) & Hsz & _).
    unfold it_incr; simpl. rewrite wrap_small by lia.
    replace (Z.of_nat k + 1) with (Z.of_nat (S k)) by lia.
    apply IH; [done|]. rewrite length_insert. lia.
Qed.

Lemma fill_list_replicate (u : T) (l2 l1 : list T) :
  fill_list (l1 ++ l2) (length l1) (length l2) u = l1 ++ replicate (length l2) u.
Proof.
  revert l1. induction l2 as [|a l2 IH]; intros l1; simpl; [done|].
  rewrite (insert_app_r_alt l1 (a :: l2) (length l1) u) by lia.
  rewrite Nat.sub_diag; simpl.
  rewrite (cons_middle u l1 l2), app_assoc.
  replace (S (length l1)) with (length (l1 ++ [u]))
    by (rewrite length_app; simpl; lia).
  rewrite IH. by rewrite <- app_assoc.
Qed.

Lemma models_fill (s : cb) (l : list T) (u : T) :
  models N s l →
  ∃ s', fill N s u = Ok s' ∧ models N s' (replicate (length l) u).
Proof.
  intros Hm. unfold fill, begin, size.
  pose proof Hm as (_ & Hsz & _). rewrite Hsz, Nat2Z.id.
  destruct (fill_n_models u (length l) 0 s l Hm ltac:(lia)) as (s' & Hf & Hm').
  exists s'. split; [done|].
  pose proof (fill_list_replicate u l []) as Hr. simpl in Hr.
  by rewrite <- Hr.
Qed.

(** *** Client programs *)

Lemma run_models (ops : list (op T)) (s s' : cb) (l : list T) :
  models N s l → run N ops s = Some s' →
  queue_ok N l ops = true ∧ models N s' (queue_run N l ops).
Proof.
  revert s l. induction ops as [|o ops IH]; intros s l Hm Hrun.
  - simpl in *. by injection Hrun as <-.
  - destruct o as [x| |u|]; simpl in *.
    + destruct (models_push s l x Hm) as (s1 & Hp & Hm1).
      rewrite Hp in Hrun. by apply (IH s1).
    + pose proof Hm as (_ & Hsz & _). unfold size in *.
      destruct (Z.ltb_spec 0 (size_ s)) as [Hpos|]; [|done].
      destruct (Nat.eqb_spec (length l) 0) as [|_]; [lia|]. simpl.
      apply (IH (pop_front N s)); [|done]. by apply models_pop.
    + destruct (models_fill s l u Hm) as (s1 & Hp & Hm1).
      rewrite Hp in Hrun. by apply (IH s1).
    + apply (IH (clear s)); [|done].
      apply models_clear. by apply (models_well_formed s l).
Qed.

(** A program that pops only from a non-empty queue runs to the end. *)
Lemma run_total (ops : list (op T)) (s : cb) (l : list T) :
  models N s l → queue_ok N l ops = true → ∃ s', run N ops s = Some s'.
Proof.
  revert s l. induction ops as [|o ops IH]; intros s l Hm Hok.
  - by exists s.
  - destruct o as [x| |u|]; simpl in *.
    + destruct (models_push s l x Hm) as (s1 & Hp & Hm1).
      rewrite Hp. by apply (IH s1 _ Hm1).
    + apply andb_true_iff in Hok as [Hne Hok].
      pose proof Hm as (_ & Hsz & _). unfold size.
      destruct (Nat.eqb_spec (length l) 0) as [|Hl]; [done|].
      destruct (Z.ltb_spec 0 (size_ s)) as [Hpos|]; [|lia].
      apply (IH (pop_front N s) (drop 1 l)); [|done]. by apply models_pop.
    + destruct (models_fill s l u Hm) as (s1 & Hp & Hm1).
      rewrite Hp. by apply (IH s1 _ Hm1).
    + apply (IH (clear s) []); [|done].
      apply models_clear. by apply (models_well_formed s l).
Qed.

Lemma reachable_models (s : cb) :
  reachable N s → ∃ ops, models N s (queue_run N [] ops).
Proof.
  intros (b & ops & Hb & Hrun). exists ops.
  by apply (run_models ops (init b) s []); [apply models_init|].
Qed.

(** *** The logical sequence after a run of pushes *)

Lemma queue_push_length (l : list T) (x : T) :
  Z.of_nat (length l) ≤ N - 1 → Z.of_nat (length (queue_push N l x)) ≤ N - 1.
Proof.
  intros Hl. unfold queue_push.
  destruct (Z.eqb_spec (Z.of_nat (length (l ++ [x]))) N) as [He|Hne];
    rewrite ?length_drop, length_app in *; simpl in *; lia.
Qed.

(** Pushing keeps the last [N - 1] items. *)
Lemma queue_run_pushes (xs l : list T) :
  Z.of_nat (length l) ≤ N - 1 →
  queue_run N l (Push <$> xs) =
  drop (length (l ++ xs) - Z.to_nat (N - 1)) (l ++ xs).
Proof.
  revert l. induction xs as [|x xs IH]; intros l Hl.
  - simpl. rewrite app_nil_r.
    by replace (length l - Z.to_nat (N - 1))%nat with 0%nat by lia.
  - rewrite fmap_cons.
    change (queue_run N l (Push x :: (Push <$> xs)))
      with (queue_run N (queue_push N l x) (Push <$> xs)).
    rewrite IH by by apply queue_push_length.
    unfold queue_push.
    destruct (Z.eqb_spec (Z.of_nat (length (l ++ [x]))) N) as [He|Hne].
    + rewrite (cons_middle x l xs), app_assoc.
      rewrite <- (drop_app_le (l ++ [x]) xs 1)
        by (rewrite length_app; simpl; lia).
      rewrite drop_drop. f_equal.
      rewrite length_drop, !length_app in *; simpl in *. lia.
    + rewrite (cons_middle x l xs), app_assoc. done.
Qed.


(** *** front and back *)

Lemma models_front (s : cb) (l : list T) (x : T) :
  models N s l → head l = Some x →
  ∃ p, front N s = Ok (Slot p) ∧ front_const N s = Ok (Slot p) ∧
       p = _head s mod N ∧ read N s (Slot p) = Ok x.
Proof.
  intros Hm Hx. rewrite head_lookup in Hx.
  destruct (models_subscript s l 0 x Hm Hx) as [H1 H2].
  simpl in H1, H2. rewrite Z.add_0_r in H1, H2.
  exists (_head s mod N). unfold front, front_const, it_deref, begin.
  cbn [_pos]. change 0 with (Z.of_nat 0). by rewrite H1.
Qed.

Lemma models_back (s : cb) (l : list T) (x : T) :
  models N s l → last l = Some x →
  ∃ p, back N s = Ok (Slot p) ∧
       p = (_head s + (size s - 1)) mod N ∧ read N s (Slot p) = Ok x.
Proof.
  intros Hm Hx. rewrite last_lookup in Hx.
  apply lookup_lt_Some in Hx as Hlt.
  destruct (models_subscript s l _ x Hm Hx) as [H1 H2].
  pose proof Hm as ((_ & Hs & _) & Hsz & _).
  replace (Z.of_nat (Nat.pred (length l))) with (size_ s - 1) in H1, H2 by lia.
  exists ((_head s + (size_ s - 1)) mod N).
  unfold back, it_deref, it_sub, end_, size; simpl.
  destruct (Z.eqb_spec N 0) as [|_]; [lia|].
  rewrite wrap_small by lia. by rewrite H1.
Qed.

End refinement.

(** ** The counters *)

Section counters.

Context {T : Type}.

Variable N : Z.

Hypothesis N_range : 1 ≤ N < size_t_modulus.

Local Abbreviation cb := (circular_buffer T).

(** For a capacity of at least one [operator[]] never leaves the array,
    whatever the index. *)
Lemma subscript_total (s : cb) (i : Z) :
  subscript N s i = Ok (wrap (_head s + i) mod N).
Proof.
  unfold subscript, _position_inbuffer_, buffer_slot.
  destruct (Z.eqb_spec N 0) as [|_]; [lia|]. simpl.
  by rewrite in_storage_mod by lia.
Qed.

Lemma fill_n_counters (u : T) (n : nat) (s : cb) (it : circular_buffer_iterator) :
  ∃ s', fill_n N s it n u = Ok s' ∧
        size_ s' = size_ s ∧ tail_ s' = tail_ s ∧ _head s' = _head s ∧
        length (buffer_ s') = length (buffer_ s).
Proof.
  revert s it. induction n as [|n IH]; intros s it; simpl.
  - by exists s.
  - unfold it_deref. rewrite subscript_total; simpl.
    unfold buffer_store. rewrite in_storage_mod by lia. simpl.
    edestruct IH as (s' & -> & H1 & H2 & H3 & H4).
    exists s'. simpl in *. by rewrite length_insert in H4.
Qed.

Lemma push_back_counters (s : cb) (x : T) :
  counters_ok N s → ∃ s', push_back N s x = Ok s' ∧ counters_ok N s'.
Proof.
  intros [Hs Ht]. unfold push_back, buffer_store, counters_ok.
  assert (wrap (size_ s + 1) = size_ s + 1) as Hw1 by (apply wrap_small; lia).
  assert (wrap (tail_ s + 1) = tail_ s + 1) as Hw2 by (apply wrap_small; lia).
  change (size_ (_incrementtail_ N s)) with (wrap (size_ s + 1)).
  rewrite Hw1.
  assert (in_storage N (tail_ (_incrementtail_ N s)) = true) as Hin.
  { unfold in_storage, storage_size; simpl. rewrite Hw2.
    destruct (Z.eqb_spec N 0); [lia|].
    destruct (Z.eqb_spec (tail_ s + 1) N); apply andb_true_iff; lia. }
  assert (0 ≤ tail_ (_incrementtail_ N s) < N) as Ht'.
  { simpl. rewrite Hw2. destruct (Z.eqb_spec (tail_ s + 1) N); lia. }
  destruct (Z.eqb_spec (size_ s + 1) N) as [Hfull|Hnot].
  - change (tail_ (_increment_head N (_incrementtail_ N s)))
      with (tail_ (_incrementtail_ N s)).
    rewrite Hin. eexists; split; [done|]. simpl in *.
    rewrite Hw1, wrap_small by lia. lia.
  - rewrite Hin. eexists; split; [done|]. simpl in *. rewrite Hw1. lia.
Qed.

Lemma run_counters (ops : list (op T)) (s s' : cb) :
  counters_ok N s → run N ops s = Some s' → counters_ok N s'.
Proof.
  revert s. induction ops as [|o ops IH]; intros s Hc Hrun.
  - simpl in Hrun. by injection Hrun as <-.
  - destruct o as [x| |u|]; simpl in Hrun.
    + destruct (push_back_counters s x Hc) as (s1 & Hp & Hc1).
      rewrite Hp in Hrun. by apply (IH s1).
    + unfold size in Hrun.
      destruct (Z.ltb_spec 0 (size_ s)) as [Hpos|]; [|done].
      apply (IH (pop_front N s)); [|done].
      destruct Hc as [Hs Ht]. split; simpl; [|done].
      rewrite wrap_small; lia.
    + destruct (fill_n_counters u (Z.to_nat (size s)) s (begin s))
        as (s1 & Hf & H1 & H2 & H3 & _).
      unfold fill in Hrun. rewrite Hf in Hrun.
      apply (IH s1); [|done]. unfold counters_ok. by rewrite H1, H2.
    + apply (IH (clear s)); [|done]. split; simpl; lia.
Qed.

Lemma reachable_counters (s : cb) : reachable N s → counters_ok N s.
Proof.
  intros (b & ops & _ & Hrun).
  apply (run_counters ops (init b)); [|done]. split; simpl; lia.
Qed.

End counters.

(** ** Programs of pushes and pops *)



Lemma pushed_pushes {T : Type} (xs : list T) : pushed (Push <$> xs) = xs.
Proof.
  induction xs as [|x xs IH]; [done|].
  rewrite fmap_cons. unfold pushed in *. simpl. by rewrite IH.
Qed.


(** X15. A run of [k] pushes into a fresh buffer is defined, leaves
    [size() == min(k, N - 1)] and keeps the last [N - 1] items pushed, in
    order. *)
Lemma push_back_run_keeps_last {T : Type} (N : Z) (b xs : list T) :
  1 ≤ N ≤ PTRDIFF_MAX → length b = Z.to_nat (storage_size N) →
  ∃ s, run N (Push <$> xs) (init b) = Some s ∧
       size s = Z.of_nat (length xs) `min` (N - 1) ∧
       to_list N s = Ok (drop (length xs - Z.to_nat (N - 1)) xs).
Proof.
  intros [HN1 HN2] Hb.
  pose proof (models_init N HN1 b Hb) as Hm0.
  assert (queue_ok N [] (Push <$> xs) = true) as Hok.
  { generalize (@nil T). induction xs as [|x xs IH]; intros l; simpl; [done|].
    apply IH. }
  destruct (run_total N HN1 HN2 _ _ _ Hm0 Hok) as [s Hrun].
  destruct (run_models N HN1 HN2 _ _ _ _ Hm0 Hrun) as [_ Hm].
  rewrite queue_run_pushes in Hm by (simpl; lia). simpl in Hm.
  exists s. split; [done|]. split; [|by apply (models_to_list N HN1 HN2)].
  destruct Hm as (_ & Hsz & _). unfold size. rewrite Hsz, length_drop. lia.
Qed.

(** ** Properties of the container *)

(** C1. [push_back] against the two-branch postcondition of the
    specification. In a buffer of capacity 3 holding two elements
    (count < N) the call does not raise the count to 3: the test
    [size_ == N] runs after the increment, so the oldest element is evicted,
    the head advances and the count stays at 2. The postcondition of the
    specification does not hold of this call. *)
Theorem push_back_evicts_below_capacity :
  run 3 [Push 1; Push 2] (init [0; 0; 0]) = Some after_1_2 ∧
  push_back 3 after_1_2 3 = Ok after_1_2_3 ∧
  size after_1_2 = 2 ∧ size after_1_2_3 = 2 ∧
  _head after_1_2 = 1 ∧ _head after_1_2_3 = 2 ∧
  ¬ spec_push_back_post 3 after_1_2 3 after_1_2_3.
Proof.
  repeat split; try reflexivity.
  intros [Hlt _]. destruct (Hlt ltac:(simpl; lia)) as [Hsz _].
  simpl in Hsz. lia.
Qed.

(** C2. [k] pushes with [k = N]: after three pushes into an empty buffer of
    capacity 3, [size()] is 2, not 3, and the traversal (by [operator[]] and
    by the iterator loop alike) yields [2, 3]: the first item is gone. *)
Theorem three_pushes_capacity_three :
  run 3 [Push 1; Push 2; Push 3] (init [0; 0; 0]) = Some after_1_2_3 ∧
  size after_1_2_3 = 2 ∧
  to_list 3 after_1_2_3 = Ok [2; 3] ∧
  iterate 3 4 after_1_2_3 (begin after_1_2_3) (end_ after_1_2_3) = Some (Ok [2; 3]) ∧
  get 3 after_1_2_3 0 = Ok 2 ∧ get 3 after_1_2_3 1 = Ok 3.
Proof. repeat split; reflexivity. Qed.

(** C3. More than [N] pushes: pushing 1, 2, 3, 4, 5 into an empty buffer of
    capacity 3 leaves [size() == 2] and the logical contents [4, 5], and one
    [pop_front] then leaves [5] with size 1. *)
Theorem five_pushes_capacity_three :
  run 3 (Push <$> [1; 2; 3; 4; 5]) (init [0; 0; 0]) = Some after_1_to_5 ∧
  size after_1_to_5 = 2 ∧
  to_list 3 after_1_to_5 = Ok [4; 5] ∧
  run 3 [Pop] after_1_to_5 = Some (pop_front 3 after_1_to_5) ∧
  size (pop_front 3 after_1_to_5) = 1 ∧
  to_list 3 (pop_front 3 after_1_to_5) = Ok [5].
Proof. repeat split; reflexivity. Qed.

(** C4. For a capacity [N >= 1], in every state reached from a fresh buffer
    by [push_back], [pop_front] on a non-empty buffer, [fill] and [clear],
    [size()] is at most [N - 1] and [full()] is false; [push_back] is
    defined there; and from any state with [size_ == N - 1] a [push_back]
    leaves [size_ == N - 1]. *)
Theorem size_stays_below_capacity {T : Type} (N : Z) :
  1 ≤ N < size_t_modulus →
  (∀ s : circular_buffer T, reachable N s → size s ≤ N - 1 ∧ full N s = false) ∧
  (∀ (s : circular_buffer T) (x : T), reachable N s →
     ∃ s', push_back N s x = Ok s') ∧
  (∀ (s s' : circular_buffer T) (x : T),
     size_ s = N - 1 → push_back N s x = Ok s' → size_ s' = N - 1).
Proof.
  intros HN. split; [|split].
  - intros s Hr. destruct (reachable_counters N HN s Hr) as [Hs _].
    unfold full, size. split; [lia|].
    destruct (Z.eqb_spec (size_ s) N); [lia | done].
  - intros s x Hr. pose proof (reachable_counters N HN s Hr) as Hc.
    destruct (push_back_counters N HN s x Hc) as (s' & Hp & _). by exists s'.
  - intros s s' x Hs Hp. unfold push_back in Hp.
    change (size_ (_incrementtail_ N s)) with (wrap (size_ s + 1)) in Hp.
    rewrite Hs in Hp. replace (N - 1 + 1) with N in Hp by lia.
    rewrite wrap_small, Z.eqb_refl in Hp by lia.
    unfold buffer_store in Hp.
    destruct (in_storage N _); [|done]. injection Hp as <-. simpl.
    rewrite Hs. replace (N - 1 + 1) with N by lia.
    rewrite (wrap_small N) by lia. rewrite wrap_small; lia.
Qed.

(** C5. Capacity 0: the first [push_back] on a fresh buffer increments
    [tail_] and [size_] to 1, neither of the two tests against [N] fires, so
    the count read by [size()], [empty()] and [full()] is 1, and the write
    goes to [buffer_[1]], outside the single placeholder slot. *)
Theorem push_back_capacity_zero {T : Type} (d x : T) :
  let s1 := _incrementtail_ 0 (init [d]) in
  empty (init [d]) = true ∧ full 0 (init [d]) = true ∧
  size s1 = 1 ∧ tail_ s1 = 1 ∧ (size_ s1 =? 0) = false ∧
  empty s1 = false ∧ full 0 s1 = false ∧
  storage_size 0 = 1 ∧ in_storage 0 (tail_ s1) = false ∧
  push_back 0 (init [d]) x = Undefined.
Proof. repeat split; reflexivity. Qed.

(** C6. [at(i)] throws [std::out_of_range] exactly when [i >= N]; for
    [0 <= i < N] it returns, whatever the current size, a reference to the
    slot [(head + i) mod N], which lies inside the array. The sum is a
    [std::size_t] sum; it is the mathematical one unless it exceeds the
    type. *)
Theorem at_throws_iff_index_reaches_capacity {T : Type} (N : Z)
    (s : circular_buffer T) (i : Z) :
  0 ≤ i →
  (at_ N s i = OutOfRange ↔ N ≤ i) ∧
  (i < N →
     at_ N s i = Ok (wrap (_head s + i) mod N) ∧
     in_storage N (wrap (_head s + i) mod N) = true ∧
     (0 ≤ _head s → _head s + i < size_t_modulus →
        at_ N s i = Ok ((_head s + i) mod N))).
Proof.
  intros Hi. unfold at_, _position_inbuffer_, buffer_slot.
  destruct (Z.leb_spec N i) as [Hge|Hlt].
  - split; [done | lia].
  - destruct (Z.eqb_spec N 0) as [|_]; [lia|]. simpl.
    rewrite in_storage_mod by lia. split; [split; [done | lia]|].
    intros _. split; [done|]. split; [done|].
    intros Hh Hsum. by rewrite wrap_small by lia.
Qed.

(** C9. After [clear()] the reads report [size() == 0], [empty() == true]
    and [full() == (N == 0)]; the three reads are functions of the state and
    leave it as it is. *)
Theorem clear_then_read {T : Type} (N : Z) (s : circular_buffer T) :
  size (clear s) = 0 ∧
  empty (clear s) = true ∧
  full N (clear s) = (N =? 0).
Proof.
  split; [reflexivity|]. split; [reflexivity|].
  unfold full, size. cbn [clear size_]. apply Z.eqb_sym.
Qed.

(** C7. [front()] and [back()] on a non-empty buffer. With [10, 20] in a
    buffer of capacity 3, both overloads of [front()] designate the slot of
    element 0 and the mutable [back()] the slot of element [size() - 1]; the
    const [back()] evaluates [*end() - 1]: it reads the slot one past the
    last element (here still holding its initial 0), subtracts one, and
    returns a reference to that temporary, not to the last element. *)
Theorem back_const_reads_past_the_end :
  run 3 [Push 10; Push 20] (init [0; 0; 0]) = Some after_10_20 ∧
  to_list 3 after_10_20 = Ok [10; 20] ∧
  front 3 after_10_20 = Ok (Slot 1) ∧
  front_const 3 after_10_20 = Ok (Slot 1) ∧
  read 3 after_10_20 (Slot 1) = Ok 10 ∧
  back 3 after_10_20 = Ok (Slot 2) ∧
  read 3 after_10_20 (Slot 2) = Ok 20 ∧
  back_const 3 int_minus after_10_20 = Ok (Temporary (-1)) ∧
  back_const 3 int_minus after_10_20 ≠ back 3 after_10_20.
Proof. repeat split; try reflexivity. discriminate. Qed.


(** C10, as stated, fails. The sum [_head + i] is a [std::size_t] sum: in
    the state reached by three pushes into a buffer of capacity 3
    ([_head == 2]) the index [2^64 - 1] designates slot
    [((2 + 2^64 - 1) mod 2^64) mod 3 = 1], while [(head + i) mod N] is 2.
    And for capacity 0 [operator[]] has no result at all. *)
Lemma subscript_sum_wraps_before_remainder :
  reachable 3 after_1_2_3 ∧
  subscript 3 after_1_2_3 (size_t_modulus - 1) = Ok 1 ∧
  (_head after_1_2_3 + (size_t_modulus - 1)) mod 3 = 2 ∧
  subscript 3 after_1_2_3 (size_t_modulus - 1) ≠
    Ok ((_head after_1_2_3 + (size_t_modulus - 1)) mod 3) ∧
  subscript 0 (init [0]) 0 = Undefined.
Proof.
  split.
  { exists [0; 0; 0], [Push 1; Push 2; Push 3]. split; reflexivity. }
  repeat split; try reflexivity. discriminate.
Qed.

(** C10, amended. For a capacity of at least one, [operator[](i)] makes no
    bounds check: for every state and every index it designates the slot
    [((head + i) mod 2^64) mod N] of the array, which is [(head + i) mod N]
    whenever the sum [head + i] is below [2^64]; and in every state a client
    program reaches, with an array of at most [PTRDIFF_MAX] elements,
    element [i] of the logical sequence ([i < count]) is the one stored in
    slot [(head + i) mod N]. *)
Theorem subscript_designates_head_plus_i_mod_N {T : Type} (N : Z) :
  1 ≤ N < size_t_modulus →
  (∀ (s : circular_buffer T) (i : Z),
     subscript N s i = Ok (wrap (_head s + i) mod N) ∧
     in_storage N (wrap (_head s + i) mod N) = true ∧
     (0 ≤ _head s → 0 ≤ i → _head s + i < size_t_modulus →
        subscript N s i = Ok ((_head s + i) mod N))) ∧
  (∀ (b : list T) (ops : list (op T)) (s : circular_buffer T) (i : nat) (x : T),
     N ≤ PTRDIFF_MAX →
     length b = Z.to_nat (storage_size N) →
     run N ops (init b) = Some s →
     queue_run N [] ops !! i = Some x →
     Z.of_nat i < size s ∧
     subscript N s (Z.of_nat i) = Ok ((_head s + Z.of_nat i) mod N) ∧
     buffer_ s !! Z.to_nat ((_head s + Z.of_nat i) mod N) = Some x ∧
     get N s (Z.of_nat i) = Ok x).
Proof.
  intros HN. assert (1 ≤ N) as HN1 by lia.
  split.
  - intros s i. rewrite (subscript_total N HN).
    split; [done|]. split; [by apply in_storage_mod|].
    intros Hh Hi Hsum. by rewrite wrap_small by lia.
  - intros b ops s i x HN2 Hb Hrun Hi.
    destruct (run_models N HN1 HN2 ops (init b) s [] (models_init N HN1 b Hb) Hrun)
      as [_ Hm].
    destruct (models_subscript N HN1 HN2 s _ i x Hm Hi) as [H1 H2].
    pose proof (models_get N HN1 HN2 s _ i x Hm Hi) as H3.
    apply lookup_lt_Some in Hi as Hlt.
    pose proof Hm as (_ & Hsz & _ & _ & _ & Hel).
    unfold size. split; [lia|]. split; [done|]. split; [by apply Hel | done].
Qed.

(** ** The theorems at concrete inputs *)

Lemma size_stays_below_capacity_witness :
  (size after_1_2_3 ≤ 3 - 1 ∧ full 3 after_1_2_3 = false) ∧
  (∃ s', push_back 3 after_1_2_3 4 = Ok s') ∧
  size_ {| buffer_ := [3; 4; 2]; size_ := 2; tail_ := 1; _head := 0 |} = 3 - 1.
Proof.
  destruct (size_stays_below_capacity (T:=Z) 3
              ltac:(unfold size_t_modulus; lia)) as (H1 & H2 & H3).
  assert (reachable 3 after_1_2_3) as Hr.
  { exists [0; 0; 0], [Push 1; Push 2; Push 3]. split; reflexivity. }
  split; [by apply H1|]. split; [by apply H2|].
  apply (H3 after_1_2_3 _ 4); reflexivity.
Defined.

Lemma at_throws_iff_index_reaches_capacity_witness :
  (at_ 3 after_1_2 5 = OutOfRange ↔ 3 ≤ 5) ∧
  at_ 3 after_1_2 2 = Ok 0.
Proof.
  split.
  - apply (at_throws_iff_index_reaches_capacity 3 after_1_2 5). lia.
  - destruct (at_throws_iff_index_reaches_capacity 3 after_1_2 2 ltac:(lia))
      as [_ H].
    destruct (H ltac:(lia)) as (_ & _ & H').
    apply H'; simpl; unfold size_t_modulus; lia.
Defined.


Lemma subscript_designates_head_plus_i_mod_N_witness :
  subscript 3 after_1_2 7 = Ok 2 ∧
  (Z.of_nat 1 < size after_1_to_5 ∧
   subscript 3 after_1_to_5 (Z.of_nat 1) = Ok 2 ∧
   buffer_ after_1_to_5 !! Z.to_nat 2 = Some 5 ∧
   get 3 after_1_to_5 (Z.of_nat 1) = Ok 5).
Proof.
  destruct (subscript_designates_head_plus_i_mod_N (T:=Z) 3
              ltac:(unfold size_t_modulus; lia)) as [H1 H2].
  split.
  - destruct (H1 after_1_2 7) as (_ & _ & H).
    apply H; simpl; unfold size_t_modulus; lia.
  - apply (H2 [0; 0; 0] (Push <$> [1; 2; 3; 4; 5]) after_1_to_5 1%nat 5);
      [unfold PTRDIFF_MAX; lia | reflexivity ..].
Defined.

(** ** Further properties of the operations *)

Lemma run_app {T : Type} (N : Z) (ops1 ops2 : list (op T)) (s : circular_buffer T) :
  run N (ops1 ++ ops2) s =
  match run N ops1 s with
  | Some s1 => run N ops2 s1
  | None => None
  end.
Proof.
  revert s. induction ops1 as [|o ops1 IH]; intros s; [done|].
  destruct o as [x| |u|]; simpl.
  - destruct (push_back N s x); [apply IH | done..].
  - destruct (0 <? size s); [apply IH | done].
  - destruct (fill N s u); [apply IH | done..].
  - apply IH.
Qed.

Lemma reachable_step {T : Type} (N : Z) (s s' : circular_buffer T) (o : op T) :
  reachable N s → run N [o] s = Some s' → reachable N s'.
Proof.
  intros (b & ops & Hb & Hrun) Hstep. exists b, (ops ++ [o]).
  split; [done|]. by rewrite run_app, Hrun.
Qed.

Lemma reachable_to_list {T : Type} (N : Z) (s : circular_buffer T) :
  1 ≤ N ≤ PTRDIFF_MAX → reachable N s →
  ∃ l, models N s l ∧ to_list N s = Ok l.
Proof.
  intros [HN1 HN2] Hr.
  destruct (reachable_models N HN1 HN2 s Hr) as [ops Hm].
  exists (queue_run N [] ops). split; [done|].
  by apply (models_to_list N HN1 HN2).
Qed.

(** The item [push_back] stores is in the slot [tail_] of the new state. *)
Lemma push_back_stores_at_tail {T : Type} (N : Z) (s s' : circular_buffer T) (x : T) :
  well_formed N s → push_back N s x = Ok s' →
  buffer_load N s' (tail_ s') = Ok x.
Proof.
  intros (Hlen & _) Hp. unfold push_back, buffer_store in Hp.
  set (s2 := if size_ (_incrementtail_ N s) =? N
             then _increment_head N (_incrementtail_ N s)
             else _incrementtail_ N s) in *.
  assert (buffer_ s2 = buffer_ s) as Hb by (subst s2; by destruct (_ =? _)).
  destruct (in_storage N (tail_ s2)) eqn:Hin; [|done].
  injection Hp as <-. unfold buffer_load; simpl. rewrite Hin, Hb.
  unfold in_storage in Hin. apply andb_true_iff in Hin as [H0 H1].
  rewrite list_lookup_insert_eq; [done|]. lia.
Qed.

(** X1. In a state a client can reach, [push_back] is defined and its effect
    on the logical sequence [l] is: [l ++ [x]] while fewer than [N - 1]
    elements are stored, and [l ++ [x]] without its first element when
    [N - 1] are stored. The new state is reachable. *)
Theorem push_back_appends_or_evicts {T : Type} (N : Z)
    (s : circular_buffer T) (l : list T) (x : T) :
  1 ≤ N ≤ PTRDIFF_MAX → reachable N s → to_list N s = Ok l →
  ∃ s', push_back N s x = Ok s' ∧ reachable N s' ∧
        (Z.of_nat (length l) + 1 < N →
           to_list N s' = Ok (l ++ [x]) ∧ size s' = size s + 1) ∧
        (Z.of_nat (length l) + 1 = N →
           to_list N s' = Ok (drop 1 (l ++ [x])) ∧ size s' = size s).
Proof.
  intros HN Hr Hl. pose proof HN as [HN1 HN2].
  destruct (reachable_to_list N s HN Hr) as (l' & Hm & Hl').
  rewrite Hl in Hl'. injection Hl' as <-.
  destruct (models_push N HN1 HN2 s l x Hm) as (s' & Hp & Hm').
  exists s'. split; [done|]. split.
  { apply (reachable_step N s s' (Push x) Hr). simpl. by rewrite Hp. }
  pose proof (models_to_list N HN1 HN2 s' _ Hm') as Ht.
  destruct Hm as (_ & Hsz & _). destruct Hm' as (_ & Hsz' & _).
  unfold queue_push in *. rewrite length_app in *. simpl length in *.
  replace (Z.of_nat (length l + 1)) with (Z.of_nat (length l) + 1) in * by lia.
  unfold size.
  split; intros Hc.
  - destruct (Z.eqb_spec (Z.of_nat (length l) + 1) N); [lia|].
    split; [done|]. rewrite length_app in Hsz'. simpl in Hsz'. lia.
  - destruct (Z.eqb_spec (Z.of_nat (length l) + 1) N); [|lia].
    split; [done|]. rewrite length_drop, length_app in Hsz'. simpl in Hsz'. lia.
Qed.

(** X2. In a reachable, non-empty state [pop_front] removes the first
    element of the logical sequence and nothing else: the count drops by
    one, the array is not touched, and the state stays reachable. *)
Theorem pop_front_removes_oldest {T : Type} (N : Z)
    (s : circular_buffer T) (x : T) (l : list T) :
  1 ≤ N ≤ PTRDIFF_MAX → reachable N s → to_list N s = Ok (x :: l) →
  to_list N (pop_front N s) = Ok l ∧
  size (pop_front N s) = size s - 1 ∧
  buffer_ (pop_front N s) = buffer_ s ∧
  reachable N (pop_front N s).
Proof.
  intros HN Hr Hl. pose proof HN as [HN1 HN2].
  destruct (reachable_to_list N s HN Hr) as (l' & Hm & Hl').
  rewrite Hl in Hl'. injection Hl' as <-.
  assert (0 < size s) as Hpos.
  { destruct Hm as (_ & Hsz & _). unfold size. rewrite Hsz. simpl. lia. }
  pose proof (models_pop N HN1 HN2 s _ Hm Hpos) as Hm'.
  rewrite skipn_cons, drop_0 in Hm'.
  split; [by apply (models_to_list N HN1 HN2)|].
  split.
  { destruct Hm as (_ & Hsz & _). destruct Hm' as (_ & Hsz' & _).
    unfold size. rewrite Hsz, Hsz'. simpl length. lia. }
  split; [done|].
  apply (reachable_step N s _ Pop Hr). simpl.
  by destruct (Z.ltb_spec 0 (size s)); [|lia].
Qed.

(** X3. In a reachable state [fill(u)] is defined, turns the logical
    sequence into [size()] copies of [u], and leaves the count, the head
    and the tail as they were. *)
Theorem fill_overwrites_logical_window {T : Type} (N : Z)
    (s : circular_buffer T) (u : T) :
  1 ≤ N ≤ PTRDIFF_MAX → reachable N s →
  ∃ s', fill N s u = Ok s' ∧
        to_list N s' = Ok (replicate (Z.to_nat (size s)) u) ∧
        size s' = size s ∧ tail_ s' = tail_ s ∧ _head s' = _head s ∧
        reachable N s'.
Proof.
  intros HN Hr. pose proof HN as [HN1 HN2].
  assert (1 ≤ N < size_t_modulus) as HN'
    by (unfold PTRDIFF_MAX in HN2; unfold size_t_modulus; lia).
  destruct (reachable_to_list N s HN Hr) as (l & Hm & Hl).
  destruct (models_fill N HN1 HN2 s l u Hm) as (s' & Hf & Hm').
  destruct (fill_n_counters N HN' u (Z.to_nat (size s)) s (begin s))
    as (s1 & Hf1 & H1 & H2 & H3 & _).
  unfold fill in Hf. rewrite Hf in Hf1. injection Hf1 as <-.
  exists s'. split; [done|].
  destruct Hm as (_ & Hsz & _). unfold size. rewrite Hsz, Nat2Z.id.
  split; [by apply (models_to_list N HN1 HN2)|].
  repeat split; try done; try lia.
  apply (reachable_step N s s' (Fill u) Hr). simpl. unfold fill. by rewrite Hf.
Qed.

Lemma exec_models {T : Type} (N : Z) (ops : list (op T))
    (s : circular_buffer T) (l : list T) :
  1 ≤ N ≤ PTRDIFF_MAX → models N s l → queue_ok N l ops = true →
  ∃ s', exec N ops s = Ok s' ∧ run N ops s = Some s' ∧
        models N s' (queue_run N l ops).
Proof.
  intros [HN1 HN2]. revert s l.
  induction ops as [|o ops IH]; intros s l Hm Hok.
  - by exists s.
  - destruct o as [x| |u|]; simpl in *.
    + destruct (models_push N HN1 HN2 s l x Hm) as (s1 & Hp & Hm1).
      rewrite Hp. simpl. by apply (IH s1).
    + apply andb_true_iff in Hok as [Hne Hok].
      pose proof Hm as (_ & Hsz & _). unfold size.
      destruct (Nat.eqb_spec (length l) 0) as [|Hl]; [done|].
      destruct (Z.ltb_spec 0 (size_ s)) as [Hpos|]; [|lia].
      apply (IH (pop_front N s) (drop 1 l)); [|done].
      by apply models_pop.
    + destruct (models_fill N HN1 HN2 s l u Hm) as (s1 & Hp & Hm1).
      rewrite Hp. simpl. by apply (IH s1).
    + apply (IH (clear s) []); [|done].
      apply models_clear; [done|]. by apply (models_well_formed N s l).
Qed.

(** X4. A client program on a fresh buffer that never calls [pop_front] on
    an empty queue, every call executed as the code has it: each call is
    defined (none leaves the array or divides by zero), and the state at
    the end holds the logical sequence the queue semantics computes: pushes
    append and evict the oldest element once [N] would be stored, pops drop
    the first element, [fill] replaces every element, [clear] empties. *)
Theorem exec_refines_queue {T : Type} (N : Z) (b : list T) (ops : list (op T)) :
  1 ≤ N ≤ PTRDIFF_MAX → length b = Z.to_nat (storage_size N) →
  queue_ok N [] ops = true →
  ∃ s, exec N ops (init b) = Ok s ∧
       to_list N s = Ok (queue_run N [] ops) ∧
       size s = Z.of_nat (length (queue_run N [] ops)) ∧
       reachable N s.
Proof.
  intros HN Hb Hok. pose proof HN as [HN1 HN2].
  destruct (exec_models N ops (init b) [] HN (models_init N HN1 b Hb) Hok)
    as (s & He & Hr & Hm).
  exists s. split; [done|].
  split; [by apply (models_to_list N HN1 HN2)|].
  split; [by destruct Hm as (_ & Hsz & _)|].
  by exists b, ops.
Qed.

(** X5. In a reachable state the loop
    [for (it = begin(); it != end(); ++it)] stops after [size()] steps and
    reads the same sequence as indexing from [0] to [size() - 1]. *)
Theorem range_for_visits_logical_sequence {T : Type} (N : Z) (s : circular_buffer T) :
  1 ≤ N ≤ PTRDIFF_MAX → reachable N s →
  ∃ l, to_list N s = Ok l ∧
       iterate N (S (Z.to_nat (size s))) s (begin s) (end_ s) = Some (Ok l) ∧
       ∀ (i : nat) (x : T), l !! i = Some x → get N s (Z.of_nat i) = Ok x.
Proof.
  intros HN Hr. pose proof HN as [HN1 HN2].
  destruct (reachable_to_list N s HN Hr) as (l & Hm & Hl).
  exists l. split; [done|]. split.
  - pose proof Hm as (_ & Hsz & _). unfold size. rewrite Hsz, Nat2Z.id.
    apply (iterate_models N HN1 HN2 s l (length l) 0 Hm). lia.
  - intros i x Hi. by apply (models_get N HN1 HN2 s l).
Qed.

Lemma reverse_iterate_models {T : Type} (N : Z) (s : circular_buffer T)
    (l : list T) (k : nat) :
  1 ≤ N ≤ PTRDIFF_MAX → models N s l → (k ≤ length l)%nat →
  reverse_iterate N (S k) s {| _pos := Z.of_nat k |} (rend s) =
  Some (Ok (reverse (take k l))).
Proof.
  intros [HN1 HN2] Hm. induction k as [|k IH]; intros Hk.
  - reflexivity.
  - pose proof Hm as ((_ & Hs & _) & Hsz & _).
    destruct (lookup_lt_is_Some_2 l k ltac:(lia)) as [x Hx].
    destruct (models_subscript N HN1 HN2 s l k x Hm Hx) as [H1 H2].
    change (reverse_iterate N (S (S k)) s {| _pos := Z.of_nat (S k) |} (rend s))
      with (if it_eq {| _pos := Z.of_nat (S k) |} (rend s) then Some (Ok [])
            else match rit_deref N s {| _pos := Z.of_nat (S k) |} ≫= buffer_load N s with
                 | Ok x =>
                     match reverse_iterate N (S k) s
                             (rit_incr {| _pos := Z.of_nat (S k) |}) (rend s) with
                     | Some (Ok xs) => Some (Ok (x :: xs))
                     | other => other
                     end
                 | OutOfRange => Some OutOfRange
                 | Undefined => Some Undefined
                 end).
    unfold it_eq, rend, begin, rit_deref, rit_incr, it_decr, it_deref.
    cbn [_pos].
    destruct (Z.eqb_spec (Z.of_nat (S k)) 0); [lia|].
    replace (wrap (Z.of_nat (S k) - 1)) with (Z.of_nat k)
      by (rewrite wrap_small; lia).
    rewrite H1. cbn [mbind result_bind]. rewrite H2.
    unfold rend, begin in IH. rewrite IH by lia.
    by rewrite (take_S_r l k x Hx), reverse_snoc.
Qed.

(** X6. In a reachable state the reverse loop
    [for (r = rbegin(); r != rend(); ++r)] stops after [size()] steps and
    reads the logical sequence back to front. *)
Theorem reverse_iteration_reverses {T : Type} (N : Z) (s : circular_buffer T) :
  1 ≤ N ≤ PTRDIFF_MAX → reachable N s →
  ∃ l, to_list N s = Ok l ∧
       reverse_iterate N (S (Z.to_nat (size s))) s (rbegin s) (rend s) =
       Some (Ok (reverse l)).
Proof.
  intros HN Hr.
  destruct (reachable_to_list N s HN Hr) as (l & Hm & Hl).
  exists l. split; [done|].
  pose proof Hm as (_ & Hsz & _). unfold rbegin, end_, size.
  rewrite Hsz, Nat2Z.id.
  rewrite (reverse_iterate_models N s l (length l) HN Hm) by lia.
  by rewrite firstn_all.
Qed.

(** X7. In a reachable, non-empty state both overloads of [front()]
    designate the slot of the first element of the logical sequence and the
    mutable [back()] the slot of the last one. *)
Theorem front_back_first_and_last {T : Type} (N : Z)
    (s : circular_buffer T) (l : list T) (x y : T) :
  1 ≤ N ≤ PTRDIFF_MAX → reachable N s → to_list N s = Ok l →
  head l = Some x → last l = Some y →
  ∃ p q,
    front N s = Ok (Slot p) ∧ front_const N s = Ok (Slot p) ∧
    read N s (Slot p) = Ok x ∧
    back N s = Ok (Slot q) ∧ read N s (Slot q) = Ok y ∧ q = tail_ s.
Proof.
  intros HN Hr Hl Hx Hy. pose proof HN as [HN1 HN2].
  destruct (reachable_to_list N s HN Hr) as (l' & Hm & Hl').
  rewrite Hl in Hl'. injection Hl' as <-.
  destruct (models_front N HN1 HN2 s l x Hm Hx) as (p & F1 & F2 & _ & F3).
  destruct (models_back N HN1 HN2 s l y Hm Hy) as (q & B1 & B2 & B3).
  exists p, q. repeat split; try done.
  destruct Hm as (_ & _ & _ & _ & Ht & _). rewrite B2, Ht. unfold size.
  f_equal. lia.
Qed.

(** X8. Insert then look up: in a reachable state, after [push_back(x)] the
    mutable [back()] designates the slot [tail_] and that slot holds [x].
    This holds for capacity 1 too, where the pushed item is never counted. *)
Theorem push_back_then_back {T : Type} (N : Z) (s : circular_buffer T) (x : T) :
  1 ≤ N ≤ PTRDIFF_MAX → reachable N s →
  ∃ s', push_back N s x = Ok s' ∧
        back N s' = Ok (Slot (tail_ s')) ∧
        read N s' (Slot (tail_ s')) = Ok x.
Proof.
  intros HN Hr. pose proof HN as [HN1 HN2].
  assert (1 ≤ N < size_t_modulus) as HN'
    by (unfold PTRDIFF_MAX in HN2; unfold size_t_modulus; lia).
  destruct (reachable_to_list N s HN Hr) as (l & Hm & Hl).
  destruct (models_push N HN1 HN2 s l x Hm) as (s' & Hp & Hm').
  exists s'. split; [done|].
  split; [|by apply (push_back_stores_at_tail N s s' x (models_well_formed N s l Hm))].
  pose proof Hm' as ((_ & Hs & _ & Hhd) & Hsz & Hle & Hh & Ht & _).
  unfold back, it_deref, it_sub, end_, size. cbn [_pos].
  destruct (Z.eqb_spec N 0) as [|_]; [lia|].
  rewrite (subscript_total N HN'). cbn [mbind result_bind mret result_ret].
  do 2 f_equal. rewrite Ht.
  destruct (Z.eq_dec N 1) as [->|HN1']; [by rewrite !Z.mod_1_r|].
  destruct Hh as [|Hlt]; [done|].
  assert (0 < size_ s') as Hpos.
  { rewrite Hsz. unfold queue_push. rewrite length_app. simpl length.
    destruct (Z.eqb_spec (Z.of_nat (length l + 1)) N);
      rewrite ?length_drop, ?length_app; simpl length; lia. }
  unfold PTRDIFF_MAX, size_t_modulus in *.
  rewrite (wrap_small (size_ s' - 1)) by (unfold size_t_modulus; lia).
  rewrite wrap_small by (unfold size_t_modulus; lia). f_equal. lia.
Qed.

(** X9. [pop_front] does not test for emptiness: on a buffer with
    [size_ == 0] the count wraps to [SIZE_MAX], so [empty()] turns false
    while the array is untouched; a [push_back] right after brings the count
    back to 0, so the item it stores is not part of the logical sequence. *)
Theorem pop_front_on_empty_underflows {T : Type} (N : Z)
    (s : circular_buffer T) (x : T) :
  1 ≤ N → size_ s = 0 →
  size (pop_front N s) = size_t_modulus - 1 ∧
  empty (pop_front N s) = false ∧
  buffer_ (pop_front N s) = buffer_ s ∧
  (∀ s', push_back N (pop_front N s) x = Ok s' →
     size s' = 0 ∧ empty s' = true ∧ to_list N s' = Ok []).
Proof.
  intros HN Hs.
  assert (size_ (pop_front N s) = size_t_modulus - 1) as Hsz.
  { simpl. rewrite Hs. reflexivity. }
  split; [done|]. split; [unfold empty, size; by rewrite Hsz|].
  split; [done|].
  intros s' Hp. unfold push_back in Hp.
  change (size_ (_incrementtail_ N (pop_front N s)))
    with (wrap (size_ (pop_front N s) + 1)) in Hp.
  rewrite Hsz in Hp.
  change (wrap (size_t_modulus - 1 + 1)) with 0 in Hp.
  destruct (Z.eqb_spec 0 N) as [|_]; [lia|].
  unfold buffer_store in Hp. destruct (in_storage N _); [|done].
  injection Hp as <-.
  unfold empty, to_list, size. simpl. rewrite Hs.
  by change (wrap (wrap (0 - 1) + 1)) with 0.
Qed.

(** X10. The indices never leave the array: in every reachable state the
    array has [N] slots, [tail_] is one of them and is the slot of the last
    element, [(head + size - 1) mod N], and for a capacity of two or more
    [_head] is a slot as well. *)
Theorem indices_stay_in_the_array {T : Type} (N : Z) (s : circular_buffer T) :
  1 ≤ N ≤ PTRDIFF_MAX → reachable N s →
  length (buffer_ s) = Z.to_nat N ∧
  0 ≤ tail_ s < N ∧
  tail_ s = (_head s + size s - 1) mod N ∧
  0 ≤ _head s ∧ (2 ≤ N → _head s < N).
Proof.
  intros HN Hr. pose proof HN as [HN1 HN2].
  destruct (reachable_to_list N s HN Hr) as (l & Hm & _).
  pose proof (models_tail_range N HN1 s l Hm) as Htr.
  destruct Hm as ((Hlen & _ & _ & Hhd) & _ & _ & Hh & Ht & _).
  rewrite (storage_size_pos N HN1) in Hlen.
  repeat split; try done; try lia.
Qed.

(** X11. Iterator offsets are inverse to each other, also across the wrap
    of the position: [(it + n) - n], [(it - n) + n], [--(++it)] and
    [++(--it)] give [it] back; and [begin() + size()] is [end()],
    [end() - size()] is [begin()]. *)
Theorem iterator_offsets_cancel {T : Type} (s : circular_buffer T)
    (it : circular_buffer_iterator) (n : Z) :
  0 ≤ _pos it < size_t_modulus → 0 ≤ size_ s < size_t_modulus →
  it_sub (it_add it n) n = it ∧
  it_add (it_sub it n) n = it ∧
  it_decr (it_incr it) = it ∧
  it_incr (it_decr it) = it ∧
  it_add (begin s) (size s) = end_ s ∧
  it_sub (end_ s) (size s) = begin s.
Proof.
  intros Hp Hs. destruct it as [p]. simpl in Hp.
  unfold it_sub, it_add, it_decr, it_incr, begin, end_, size, wrap; simpl.
  assert (size_t_modulus ≠ 0) as Hm by (unfold size_t_modulus; lia).
  rewrite !Zminus_mod_idemp_l, !Zplus_mod_idemp_l.
  replace (p + n - n) with p by lia. replace (p - n + n) with p by lia.
  replace (p + 1 - 1) with p by lia. replace (p - 1 + 1) with p by lia.
  rewrite Z.sub_diag, Z.mod_0_l by done.
  by rewrite !Z.mod_small by lia.
Qed.

(** X12. The two comparison operators of the iterator agree: [a != b] is
    the negation of [a == b], [a == b] holds exactly for the same buffer and
    the same position, and iterators of different buffers are never
    equal. *)
Theorem iterator_ne_negates_eq (a b : located_iterator) :
  operator_ne a b = negb (operator_eq a b) ∧
  (operator_eq a b = true ↔ a = b) ∧
  (_circular_buffer a ≠ _circular_buffer b → operator_eq a b = false).
Proof.
  destruct a as [ba [pa]], b as [bb [pb]]. unfold operator_ne, operator_eq; simpl.
  split; [by rewrite negb_andb|]. split.
  - rewrite andb_true_iff, !Z.eqb_eq. split.
    + by intros [-> ->].
    + intros H. injection H as -> ->. done.
  - intros Hne. apply Z.eqb_neq in Hne. by rewrite Hne.
Qed.

(** X13. With capacity 0 no element can be accessed: [operator[]],
    [front()], [back()] and every traversal of a non-empty range divide by
    zero in [_position_inbuffer_], [at()] throws for every index, and
    [fill] is defined only on a buffer whose count is 0, where it does
    nothing. *)
Theorem capacity_zero_has_no_element_access {T : Type}
    (s : circular_buffer T) (i : Z) (u : T) :
  0 ≤ i →
  subscript 0 s i = Undefined ∧
  get 0 s i = Undefined ∧
  front 0 s = Undefined ∧
  front_const 0 s = Undefined ∧
  back 0 s = Undefined ∧
  at_ 0 s i = OutOfRange ∧
  (0 < size s → fill 0 s u = Undefined ∧ to_list 0 s = Undefined) ∧
  (size s ≤ 0 → fill 0 s u = Ok s ∧ to_list 0 s = Ok []).
Proof.
  intros Hi. repeat split; try reflexivity.
  - unfold at_. by destruct (Z.leb_spec 0 i); [|lia].
  - unfold fill. destruct (Z.to_nat (size s)) eqn:E; [lia | done].
  - unfold to_list. destruct (Z.to_nat (size s)) eqn:E; [lia | done].
  - unfold fill. destruct (Z.to_nat (size s)) eqn:E; [done | lia].
  - unfold to_list. destruct (Z.to_nat (size s)) eqn:E; [done | lia].
Qed.


(** ** The further properties at concrete inputs *)

Lemma capacity_3_fits : 1 ≤ 3 ≤ PTRDIFF_MAX.
Proof. unfold PTRDIFF_MAX. lia. Qed.

Lemma reachable_after_1_2 : reachable 3 after_1_2.
Proof. exists [0; 0; 0], [Push 1; Push 2]. split; reflexivity. Qed.

Lemma reachable_after_1_to_5 : reachable 3 after_1_to_5.
Proof. exists [0; 0; 0], (Push <$> [1; 2; 3; 4; 5]). split; reflexivity. Qed.

Lemma reachable_after_10_20 : reachable 3 after_10_20.
Proof. exists [0; 0; 0], [Push 10; Push 20]. split; reflexivity. Qed.

Lemma push_back_appends_or_evicts_witness :
  (∃ s', push_back 3 after_1_2 3 = Ok s' ∧
         to_list 3 s' = Ok [2; 3] ∧ size s' = size after_1_2) ∧
  (∃ s', push_back 3 (init [0; 0; 0]) 1 = Ok s' ∧
         to_list 3 s' = Ok [1] ∧ size s' = size (init [0; 0; 0]) + 1).
Proof.
  split.
  - destruct (push_back_appends_or_evicts 3 after_1_2 [1; 2] 3
                capacity_3_fits reachable_after_1_2 eq_refl)
      as (s' & Hp & _ & _ & He).
    exists s'. split; [exact Hp|]. apply He. reflexivity.
  - destruct (push_back_appends_or_evicts 3 (init [0; 0; 0]) [] 1
                capacity_3_fits
                (ex_intro _ [0; 0; 0] (ex_intro _ [] (conj eq_refl eq_refl)))
                eq_refl)
      as (s' & Hp & _ & Hb & _).
    exists s'. split; [exact Hp|]. apply Hb. simpl. lia.
Defined.

Lemma pop_front_removes_oldest_witness :
  to_list 3 (pop_front 3 after_1_to_5) = Ok [5] ∧
  size (pop_front 3 after_1_to_5) = size after_1_to_5 - 1 ∧
  buffer_ (pop_front 3 after_1_to_5) = buffer_ after_1_to_5 ∧
  reachable 3 (pop_front 3 after_1_to_5).
Proof.
  apply (pop_front_removes_oldest 3 after_1_to_5 4 [5]
           capacity_3_fits reachable_after_1_to_5 eq_refl).
Defined.

Lemma fill_overwrites_logical_window_witness :
  ∃ s', fill 3 after_1_2 9 = Ok s' ∧
        to_list 3 s' = Ok (replicate (Z.to_nat (size after_1_2)) 9) ∧
        size s' = size after_1_2 ∧ tail_ s' = tail_ after_1_2 ∧
        _head s' = _head after_1_2 ∧ reachable 3 s'.
Proof.
  apply (fill_overwrites_logical_window 3 after_1_2 9
           capacity_3_fits reachable_after_1_2).
Defined.

Lemma exec_refines_queue_witness :
  ∃ s, exec 3 [Push 1; Push 2; Push 3; Pop; Fill 7; Push 8] (init [0; 0; 0]) = Ok s ∧
       to_list 3 s = Ok [7; 8] ∧ size s = 2 ∧ reachable 3 s.
Proof.
  apply (exec_refines_queue 3 [0; 0; 0]
           [Push 1; Push 2; Push 3; Pop; Fill 7; Push 8]
           capacity_3_fits eq_refl eq_refl).
Defined.

Lemma range_for_visits_logical_sequence_witness :
  ∃ l, to_list 3 after_1_to_5 = Ok l ∧
       iterate 3 (S (Z.to_nat (size after_1_to_5))) after_1_to_5
         (begin after_1_to_5) (end_ after_1_to_5) = Some (Ok l) ∧
       ∀ (i : nat) (x : Z), l !! i = Some x → get 3 after_1_to_5 (Z.of_nat i) = Ok x.
Proof.
  apply (range_for_visits_logical_sequence 3 after_1_to_5
           capacity_3_fits reachable_after_1_to_5).
Defined.

Lemma reverse_iteration_reverses_witness :
  ∃ l, to_list 3 after_1_to_5 = Ok l ∧
       reverse_iterate 3 (S (Z.to_nat (size after_1_to_5))) after_1_to_5
         (rbegin after_1_to_5) (rend after_1_to_5) = Some (Ok (reverse l)).
Proof.
  apply (reverse_iteration_reverses 3 after_1_to_5
           capacity_3_fits reachable_after_1_to_5).
Defined.

Lemma front_back_first_and_last_witness :
  ∃ p q,
    front 3 after_10_20 = Ok (Slot p) ∧ front_const 3 after_10_20 = Ok (Slot p) ∧
    read 3 after_10_20 (Slot p) = Ok 10 ∧
    back 3 after_10_20 = Ok (Slot q) ∧ read 3 after_10_20 (Slot q) = Ok 20 ∧
    q = tail_ after_10_20.
Proof.
  apply (front_back_first_and_last 3 after_10_20 [10; 20] 10 20
           capacity_3_fits reachable_after_10_20 eq_refl eq_refl eq_refl).
Defined.

Lemma push_back_then_back_witness :
  ∃ s', push_back 3 after_1_2 3 = Ok s' ∧
        back 3 s' = Ok (Slot (tail_ s')) ∧
        read 3 s' (Slot (tail_ s')) = Ok 3.
Proof.
  apply (push_back_then_back 3 after_1_2 3 capacity_3_fits reachable_after_1_2).
Defined.

Lemma pop_front_on_empty_underflows_witness :
  size (pop_front 3 (init [0; 0; 0])) = size_t_modulus - 1 ∧
  empty (pop_front 3 (init [0; 0; 0])) = false ∧
  size {| buffer_ := [0; 5; 0]; size_ := 0; tail_ := 1; _head := 2 |} = 0.
Proof.
  destruct (pop_front_on_empty_underflows 3 (init [0; 0; 0]) 5
              ltac:(lia) eq_refl) as (H1 & H2 & _ & H3).
  split; [exact H1|]. split; [exact H2|].
  apply (H3 {| buffer_ := [0; 5; 0]; size_ := 0; tail_ := 1; _head := 2 |}).
  reflexivity.
Defined.

Lemma indices_stay_in_the_array_witness :
  length (buffer_ after_1_to_5) = Z.to_nat 3 ∧
  0 ≤ tail_ after_1_to_5 < 3 ∧
  tail_ after_1_to_5 = (_head after_1_to_5 + size after_1_to_5 - 1) mod 3 ∧
  0 ≤ _head after_1_to_5 ∧ (2 ≤ 3 → _head after_1_to_5 < 3).
Proof.
  apply (indices_stay_in_the_array 3 after_1_to_5
           capacity_3_fits reachable_after_1_to_5).
Defined.

Lemma iterator_offsets_cancel_witness :
  it_sub (it_add (begin after_1_2) 5) 5 = begin after_1_2 ∧
  it_add (it_sub (begin after_1_2) 5) 5 = begin after_1_2 ∧
  it_decr (it_incr (begin after_1_2)) = begin after_1_2 ∧
  it_incr (it_decr (begin after_1_2)) = begin after_1_2 ∧
  it_add (begin after_1_2) (size after_1_2) = end_ after_1_2 ∧
  it_sub (end_ after_1_2) (size after_1_2) = begin after_1_2.
Proof.
  apply (iterator_offsets_cancel after_1_2 (begin after_1_2) 5);
    simpl; unfold size_t_modulus; lia.
Defined.

Lemma iterator_ne_negates_eq_witness :
  operator_eq (mk_located 4096 (mk_iterator 2)) (mk_located 8192 (mk_iterator 2)) = false.
Proof.
  apply (iterator_ne_negates_eq (mk_located 4096 (mk_iterator 2))
           (mk_located 8192 (mk_iterator 2))).
  simpl. lia.
Defined.

Lemma capacity_zero_has_no_element_access_witness :
  subscript 0 (init [0]) 0 = Undefined ∧
  at_ 0 (init [0]) 0 = OutOfRange ∧
  fill 0 (init [0]) 1 = Ok (init [0]).
Proof.
  destruct (capacity_zero_has_no_element_access (init [0]) 0 1 ltac:(lia))
    as (H1 & _ & _ & _ & _ & H2 & _ & H3).
  split; [exact H1|]. split; [exact H2|].
  apply H3. simpl. lia.
Defined.



Lemma push_back_run_keeps_last_witness :
  ∃ s, run 3 (Push <$> [1; 2; 3; 4; 5]) (init [0; 0; 0]) = Some s ∧
       size s = Z.of_nat (length [1; 2; 3; 4; 5]) `min` (3 - 1) ∧
       to_list 3 s = Ok (drop (length [1; 2; 3; 4; 5] - Z.to_nat (3 - 1)) [1; 2; 3; 4; 5]).
Proof.
  apply (push_back_run_keeps_last 3 [0; 0; 0] [1; 2; 3; 4; 5]
           capacity_3_fits eq_refl).
Defined.
